(** * QCoro::Generator<T>: a shallow embedding of src/qcoro/qcorogenerator.h

    The header defines three classes: [GeneratorPromise] (the promise type
    of the generator coroutine), [GeneratorIterator] and [Generator].  The
    coroutine body itself is user code; it is modelled as a finite script
    of [co_yield], [co_return] and [throw] steps, executed by the C++20
    coroutine protocol, which calls the promise hooks of the header. *)

From stdpp Require Import gmap list.

(** ** Data *)

Section Model.
Context {T E A : Type}.
(** [T]: the generator's value type; [E]: exception objects thrown by the
    coroutine body; [A]: observable actions of the body (anything the
    producer logic does besides yielding). *)

(** [std::exception_ptr]: a nullable pointer to an exception object;
    [None] is the null pointer [std::exception_ptr{}]. *)
Definition exception_ptr : Type := option E.

(** [std::variant<std::monostate, T, std::exception_ptr>] *)
Inductive variant : Type :=
| monostate
| alt_T (v : T)
| alt_exception_ptr (p : exception_ptr).

Definition holds_monostate (x : variant) : bool :=
  match x with monostate => true | _ => false end.
Definition holds_T (x : variant) : bool :=
  match x with alt_T _ => true | _ => false end.
Definition holds_exception_ptr (x : variant) : bool :=
  match x with alt_exception_ptr _ => true | _ => false end.

(** What a C++ expression can throw here: an exception of the coroutine
    body, or [std::bad_variant_access] from [std::get]. *)
Inductive thrown : Type :=
| body_exception (e : E)
| bad_variant_access.

(** [std::suspend_always] and its counterpart: what an awaited hook tells
    the coroutine to do. *)
Inductive awaitable : Type := suspend_always | suspend_never.

(** *** GeneratorPromise *)

Record GeneratorPromise : Type := { mValue : variant }.

(** A default-constructed variant holds its first alternative. *)
Definition GeneratorPromise_new : GeneratorPromise := {| mValue := monostate |}.

Definition initial_suspend (p : GeneratorPromise) : awaitable * GeneratorPromise :=
  (suspend_always, p).

Definition final_suspend (p : GeneratorPromise) : awaitable * GeneratorPromise :=
  (suspend_always, {| mValue := monostate |}).

(** [mValue = std::current_exception()], called inside the handler of the
    exception [e], where [std::current_exception()] is not null. *)
Definition unhandled_exception (e : E) (p : GeneratorPromise) : GeneratorPromise :=
  {| mValue := alt_exception_ptr (Some e) |}.

Definition yield_value (from : T) (p : GeneratorPromise) : awaitable * GeneratorPromise :=
  (suspend_always, {| mValue := alt_T from |}).

Definition return_void (p : GeneratorPromise) : GeneratorPromise := p.

Definition exception (p : GeneratorPromise) : exception_ptr :=
  match mValue p with
  | alt_exception_ptr e => e
  | _ => None
  end.

(** [std::get<T>(mValue)] throws when another alternative is held. *)
Definition value (p : GeneratorPromise) : thrown + T :=
  match mValue p with
  | alt_T v => inr v
  | _ => inl bad_variant_access
  end.

Definition finished (p : GeneratorPromise) : bool := holds_monostate (mValue p).

(** *** The generator coroutine *)

(** The body of a generator coroutine, as far as the promise can see it. *)
Inductive coroutine_body : Type :=
| producer_logic (a : A) (k : coroutine_body)
| co_yield (v : T) (k : coroutine_body)
| co_return
| throw (e : E).

(** Where a suspended coroutine will continue. *)
Inductive suspend_point : Type :=
| at_initial_suspend (b : coroutine_body)
| at_yield (k : coroutine_body)
| at_final_suspend.

(** The coroutine state: the promise object and the suspend point. *)
Record coroutine_frame : Type :=
  { promise : GeneratorPromise; suspended_at : suspend_point }.

(** [std::coroutine_handle<promise_type>]: the address of a frame, or
    [nullptr]. *)
Definition coroutine_handle : Type := option positive.
Definition nullptr : coroutine_handle := None.

(** The part of the program state the generator touches: the coroutine
    frames on the heap and the actions the coroutine bodies performed so
    far. *)
Record world : Type :=
  { frames : gmap positive coroutine_frame; trace : list A }.

Record GeneratorIterator : Type :=
  { it_mGeneratorCoroutine : coroutine_handle }.

Record Generator : Type :=
  { mGeneratorCoroutine : coroutine_handle }.

(** ** Effects *)

(** The result of evaluating an expression in a world. *)
Inductive outcome (X : Type) : Type :=
| Returns (x : X) (w : world)
| Throws (t : thrown) (w : world)
| Terminates                     (* std::terminate was called *)
| Undefined.                     (* undefined behaviour *)
Global Arguments Returns {X} x w.
Global Arguments Throws {X} t w.
Global Arguments Terminates {X}.
Global Arguments Undefined {X}.

Definition M (X : Type) : Type := world → outcome X.

Definition M_ret {X} (x : X) : M X := λ w, Returns x w.

Definition M_bind {X Y} (f : X → M Y) (m : M X) : M Y :=
  λ w, match m w with
       | Returns x w' => f x w'
       | Throws t w' => Throws t w'
       | Terminates => Terminates
       | Undefined => Undefined
       end.

Definition M_throw {X} (t : thrown) : M X := λ w, Throws t w.

(** A function declared [noexcept] calls [std::terminate] when an
    exception leaves it. *)
Definition noexcept {X} (m : M X) : M X :=
  λ w, match m w with
       | Throws _ _ => Terminates
       | r => r
       end.
End Model.

Global Arguments variant : clear implicits.
Global Arguments thrown : clear implicits.
Global Arguments GeneratorPromise : clear implicits.
Global Arguments coroutine_body : clear implicits.
Global Arguments suspend_point : clear implicits.
Global Arguments coroutine_frame : clear implicits.
Global Arguments world : clear implicits.
Global Arguments outcome : clear implicits.
Global Arguments M : clear implicits.
Global Arguments exception_ptr : clear implicits.

Global Instance M_MRet {T E A} : MRet (M T E A) := λ X, M_ret.
Global Instance M_MBind {T E A} : MBind (M T E A) := λ X Y, M_bind.

(** ** Operations *)

Section Operations.
Context {T E A : Type}.
Abbreviation GeneratorPromise := (GeneratorPromise T E).
Abbreviation coroutine_body := (coroutine_body T E A).
Abbreviation coroutine_frame := (coroutine_frame T E A).
Abbreviation world := (world T E A).
Abbreviation M := (M T E A).

(** *** The coroutine protocol of C++20

    A resumed coroutine runs its body up to the next suspend point.  Each
    [co_yield v] awaits [promise.yield_value(v)]; leaving the body by
    [co_return] (or by falling off its end) calls [promise.return_void()],
    leaving it by an exception calls [promise.unhandled_exception()]
    inside the handler, and both then await [promise.final_suspend()].
    A coroutine that does not suspend at its final suspend point is
    destroyed. *)

Definition reach_final_suspend (p : GeneratorPromise) (tr : list A)
  : option coroutine_frame * list A :=
  let '(aw, p') := final_suspend p in
  match aw with
  | suspend_always => (Some {| promise := p'; suspended_at := at_final_suspend |}, tr)
  | suspend_never => (None, tr)
  end.

Fixpoint run_body (b : coroutine_body) (p : GeneratorPromise) (tr : list A)
  : option coroutine_frame * list A :=
  match b with
  | producer_logic a k => run_body k p (tr ++ [a])
  | co_yield v k =>
      let '(aw, p') := yield_value v p in
      match aw with
      | suspend_always => (Some {| promise := p'; suspended_at := at_yield k |}, tr)
      | suspend_never => run_body k p' tr
      end
  | co_return => reach_final_suspend (return_void p) tr
  | throw e => reach_final_suspend (unhandled_exception e p) tr
  end.

(** Stores what [run_body] left of the frame at address [l]. *)
Definition store_frame (l : positive) (r : option coroutine_frame * list A)
    (w : world) : world :=
  {| frames := match r.1 with
               | Some fr => <[l := fr]> (frames w)
               | None => delete l (frames w)
               end;
     trace := r.2 |}.

(** [handle.resume()]: undefined on a null or dangling handle and on a
    coroutine suspended at its final suspend point. *)
Definition resume (h : coroutine_handle) : M () :=
  λ w, match h with
       | None => Undefined
       | Some l =>
           match frames w !! l with
           | None => Undefined
           | Some fr =>
               match suspended_at fr with
               | at_initial_suspend b | at_yield b =>
                   Returns () (store_frame l (run_body b (promise fr) (trace w)) w)
               | at_final_suspend => Undefined
               end
           end
       end.

(** [handle.promise()]: a read of the promise object in the frame. *)
Definition handle_promise (h : coroutine_handle) : M GeneratorPromise :=
  λ w, match h with
       | None => Undefined
       | Some l =>
           match frames w !! l with
           | None => Undefined
           | Some fr => Returns (promise fr) w
           end
       end.

(** [handle.destroy()] *)
Definition destroy (h : coroutine_handle) : M () :=
  λ w, match h with
       | None => Undefined
       | Some l =>
           match frames w !! l with
           | None => Undefined
           | Some _ => Returns () {| frames := delete l (frames w); trace := trace w |}
           end
       end.

(** [get_return_object()]: the Generator around the handle obtained
    from the promise, that is, around the address of its frame. *)
Definition get_return_object (l : positive) : Generator :=
  {| mGeneratorCoroutine := Some l |}.

(** Calling a generator coroutine whose body is [b]: the frame is
    allocated, the promise constructed, the return object made, and
    [promise.initial_suspend()] awaited; the body starts only if that
    does not suspend. *)
Definition call_coroutine (b : coroutine_body) : M Generator :=
  λ w, let l := fresh (dom (frames w)) in
       let g := get_return_object l in
       let '(aw, p) := initial_suspend GeneratorPromise_new in
       match aw with
       | suspend_always =>
           Returns g {| frames := <[l := {| promise := p; suspended_at := at_initial_suspend b |}]> (frames w);
                        trace := trace w |}
       | suspend_never =>
           Returns g (store_frame l (run_body b p (trace w)) w)
       end.

(** *** GeneratorIterator *)

(** [operator++]: the first component is the iterator object after the
    call, the second the copy of it that is returned. *)
Definition GeneratorIterator_incr (this : GeneratorIterator)
  : M (GeneratorIterator * GeneratorIterator) :=
  noexcept (
    if bool_decide (it_mGeneratorCoroutine this = nullptr) then
      mret (this, this)
    else
      _ ← resume (it_mGeneratorCoroutine this);
      p ← handle_promise (it_mGeneratorCoroutine this);
      let this' := if finished p
                   then {| it_mGeneratorCoroutine := nullptr |}
                   else this in
      mret (this', this')).

(** [operator*] *)
Definition GeneratorIterator_deref (this : GeneratorIterator) : M T :=
  noexcept (
    p ← handle_promise (it_mGeneratorCoroutine this);
    match exception p with
    | Some e => M_throw (body_exception e)        (* std::rethrow_exception *)
    | None =>
        match value p with
        | inr v => mret v
        | inl t => M_throw t
        end
    end).

Definition GeneratorIterator_eq (this other : GeneratorIterator) : bool :=
  bool_decide (it_mGeneratorCoroutine this = it_mGeneratorCoroutine other).

Definition GeneratorIterator_neq (this other : GeneratorIterator) : bool :=
  negb (GeneratorIterator_eq this other).

(** *** Generator *)

Definition Generator_destructor (this : Generator) : M () :=
  destroy (mGeneratorCoroutine this).

Definition Generator_begin (this : Generator) : M GeneratorIterator :=
  _ ← resume (mGeneratorCoroutine this);
  p ← handle_promise (mGeneratorCoroutine this);
  if finished p
  then mret {| it_mGeneratorCoroutine := nullptr |}
  else mret {| it_mGeneratorCoroutine := mGeneratorCoroutine this |}.

Definition Generator_end (this : Generator) : M GeneratorIterator :=
  mret {| it_mGeneratorCoroutine := nullptr |}.

(** *** The consumer

    The traversal loop of a caller,
    [for (auto it = g.begin(); it != g.end(); ++it)] with a body that
    reads [*it], collecting the values read.  [None] is returned when the loop
    has not ended after [fuel] iterations. *)
Fixpoint for_loop (fuel : nat) (g : Generator) (it : GeneratorIterator)
    (seen : list T) : M (option (list T * GeneratorIterator)) :=
  match fuel with
  | 0 => mret None
  | S fuel' =>
      e ← Generator_end g;
      if GeneratorIterator_neq it e then
        v ← GeneratorIterator_deref it;
        r ← GeneratorIterator_incr it;
        for_loop fuel' g r.1 (seen ++ [v])
      else mret (Some (seen, it))
  end.

(** [n] times [++it]. *)
Fixpoint advance (n : nat) (it : GeneratorIterator) : M GeneratorIterator :=
  match n with
  | 0 => mret it
  | S n' => r ← GeneratorIterator_incr it; advance n' r.1
  end.

Definition traverse (fuel : nat) (g : Generator)
  : M (option (list T * GeneratorIterator)) :=
  it ← Generator_begin g;
  for_loop fuel g it [].

(** *** What a body does when run to its end *)

Fixpoint yielded (b : coroutine_body) : list T :=
  match b with
  | producer_logic _ k => yielded k
  | co_yield v k => v :: yielded k
  | co_return | throw _ => []
  end.

Fixpoint performed (b : coroutine_body) : list A :=
  match b with
  | producer_logic a k => a :: performed k
  | co_yield _ k => performed k
  | co_return | throw _ => []
  end.

(** The first [co_yield] of a body: the value and the rest of the body. *)
Fixpoint first_yield (b : coroutine_body) : option (T * coroutine_body) :=
  match b with
  | producer_logic _ k => first_yield k
  | co_yield v k => Some (v, k)
  | co_return | throw _ => None
  end.

(** The actions of a body before its first suspend point. *)
Fixpoint performed_first (b : coroutine_body) : list A :=
  match b with
  | producer_logic a k => a :: performed_first k
  | co_yield _ _ | co_return | throw _ => []
  end.

(** [None]: the body returns; [Some e]: it ends by throwing [e]. *)
Fixpoint raised (b : coroutine_body) : option E :=
  match b with
  | producer_logic _ k | co_yield _ k => raised k
  | co_return => None
  | throw e => Some e
  end.
(** The frame of a coroutine that went through [final_suspend]. *)
Definition finished_frame : coroutine_frame :=
  {| promise := {| mValue := monostate |}; suspended_at := at_final_suspend |}.

(** The frame a resumed body leaves behind: suspended at its first
    [co_yield] with the value in the promise, or finished. *)
Definition frame_after (b : coroutine_body) : coroutine_frame :=
  match first_yield b with
  | Some (v, k) => {| promise := {| mValue := alt_T v |}; suspended_at := at_yield k |}
  | None => finished_frame
  end.

(** The world after a traversal to the end of the coroutine at [l]. *)
Definition exhausted (l : positive) (k : coroutine_body) (w : world) : world :=
  {| frames := <[l := finished_frame]> (frames w); trace := trace w ++ performed k |}.

Definition sentinel : GeneratorIterator := {| it_mGeneratorCoroutine := nullptr |}.
End Operations.


(** ** Sample generators *)

Module Samples.
Abbreviation body := (coroutine_body nat nat nat).

(** No coroutine has been called yet. *)
Definition no_frames : world nat nat nat := {| frames := ∅; trace := [] |}.

(** [log(7); co_yield 1; co_yield 2; log(8);] *)
Definition two_values : body :=
  producer_logic 7 (co_yield 1 (co_yield 2 (producer_logic 8 co_return))).

(** [log(7);] *)
Definition no_value : body := producer_logic 7 co_return.

(** [throw 9;] *)
Definition throws_at_once : body := throw 9.

(** [co_yield 1; throw 9;] *)
Definition yields_then_throws : body := co_yield 1 (throw 9).

(** A world with one coroutine, suspended at a [co_yield 5] that is
    followed by a [throw 9]. *)
Definition about_to_throw : world nat nat nat :=
  {| frames := {[ 1%positive :=
                    {| promise := {| mValue := alt_T 5 |};
                       suspended_at := at_yield (throw 9) |} ]};
     trace := [] |}.

(** The same world after the coroutine has been resumed. *)
Definition throw_done : world nat nat nat :=
  {| frames := {[ 1%positive := finished_frame ]}; trace := [] |}.
End Samples.

(** ** A coroutine after several resumptions *)

Section Progress.
Context {T E A : Type}.

(** The [n]-th [co_yield] of a body, counted from 0: the value and the
    rest of the body; [None] when the body ends before. *)
Fixpoint nth_yield (n : nat) (b : coroutine_body T E A)
  : option (T * coroutine_body T E A) :=
  match n with
  | 0 => first_yield b
  | S n' =>
      match first_yield b with
      | Some (_, k) => nth_yield n' k
      | None => None
      end
  end.

(** The actions performed by [n] resumptions of a coroutine suspended in
    front of [b]. *)
Fixpoint performed_by (n : nat) (b : coroutine_body T E A) : list A :=
  match n with
  | 0 => []
  | S n' =>
      performed_first b ++
      match first_yield b with
      | Some (_, k) => performed_by n' k
      | None => []
      end
  end.

(** The frame left by [n + 1] resumptions of a coroutine suspended in
    front of [b]. *)
Definition frame_at (n : nat) (b : coroutine_body T E A) : coroutine_frame T E A :=
  match nth_yield n b with
  | Some (v, k) => {| promise := {| mValue := alt_T v |}; suspended_at := at_yield k |}
  | None => finished_frame
  end.

(** The iterator after [begin()] and [n] increments on the coroutine at
    [l] that was suspended in front of [b]. *)
Definition iterator_at (n : nat) (l : positive) (b : coroutine_body T E A)
  : GeneratorIterator :=
  match nth_yield n b with
  | Some _ => {| it_mGeneratorCoroutine := Some l |}
  | None => sentinel
  end.

(** [it = g.begin()] followed by [n] times [++it]. *)
Definition begin_advance (n : nat) (g : Generator) : M T E A GeneratorIterator :=
  it ← Generator_begin g; advance n it.
End Progress.

Module MoreSamples.
Import Samples.

(** A world with the coroutine of [two_values] at address 1, suspended at
    its first [co_yield], and another one at address 2 that has not
    started. *)
Definition two_coroutines : world nat nat nat :=
  {| frames := {[ 1%positive :=
                    {| promise := {| mValue := alt_T 1 |};
                       suspended_at := at_yield (co_yield 2 (producer_logic 8 co_return)) |};
                  2%positive :=
                    {| promise := GeneratorPromise_new;
                       suspended_at := at_initial_suspend yields_then_throws |} ]};
     trace := [7] |}.

Definition first : Generator := {| mGeneratorCoroutine := Some 1%positive |}.
Definition first_it : GeneratorIterator := {| it_mGeneratorCoroutine := Some 1%positive |}.
Definition second : Generator := {| mGeneratorCoroutine := Some 2%positive |}.
Definition second_it : GeneratorIterator := {| it_mGeneratorCoroutine := Some 2%positive |}.
End MoreSamples.

(** ** Properties of the coroutine protocol *)

Section Protocol.
Context {T E A : Type}.
Implicit Types (b k : coroutine_body T E A) (p : GeneratorPromise T E).
Implicit Types (w : world T E A) (tr : list A) (l : positive).

Lemma run_body_eq b p tr :
  run_body b p tr = (Some (frame_after b), tr ++ performed_first b).
Proof.
  revert tr. induction b as [a k IH | v k _ | | e]; intros tr; simpl.
  - rewrite IH. unfold frame_after. simpl. by rewrite <- app_assoc.
  - by rewrite app_nil_r.
  - by rewrite app_nil_r.
  - by rewrite app_nil_r.
Qed.

Lemma yielded_first_yield b :
  yielded b = match first_yield b with
              | Some (v, k) => v :: yielded k
              | None => []
              end.
Proof. induction b; simpl; auto. Qed.

Lemma performed_first_yield b :
  performed b = performed_first b ++ match first_yield b with
                                     | Some (_, k) => performed k
                                     | None => []
                                     end.
Proof. induction b; simpl; auto. by f_equal. Qed.

Lemma finished_frame_after b :
  finished (promise (frame_after b)) = bool_decide (first_yield b = None).
Proof. unfold frame_after. by destruct (first_yield b) as [[v k]|]. Qed.

Lemma resume_suspended l w fr b :
  frames w !! l = Some fr →
  suspended_at fr = at_initial_suspend b ∨ suspended_at fr = at_yield b →
  resume (Some l) w =
    Returns () {| frames := <[l := frame_after b]> (frames w);
                  trace := trace w ++ performed_first b |}.
Proof.
  intros Hl Hs. unfold resume. rewrite Hl.
  destruct Hs as [-> | ->]; by rewrite run_body_eq.
Qed.

Lemma handle_promise_lookup l w fr :
  frames w !! l = Some fr → handle_promise (Some l) w = Returns (promise fr) w.
Proof. intros Hl. unfold handle_promise. by rewrite Hl. Qed.

(** One [++it] on a live iterator whose coroutine can be resumed. *)
Lemma incr_suspended l w fr b :
  frames w !! l = Some fr →
  suspended_at fr = at_initial_suspend b ∨ suspended_at fr = at_yield b →
  let it' := if bool_decide (first_yield b = None) then sentinel
             else {| it_mGeneratorCoroutine := Some l |} in
  GeneratorIterator_incr {| it_mGeneratorCoroutine := Some l |} w =
    Returns (it', it') {| frames := <[l := frame_after b]> (frames w);
                          trace := trace w ++ performed_first b |}.
Proof.
  intros Hl Hs. unfold GeneratorIterator_incr, noexcept. simpl.
  unfold mbind, M_MBind, M_bind.
  rewrite (resume_suspended l w fr b Hl Hs).
  erewrite handle_promise_lookup by (simpl; apply lookup_insert_eq).
  rewrite finished_frame_after. by case_bool_decide.
Qed.

Lemma deref_value l w (v : T) (sp : suspend_point T E A) :
  frames w !! l = Some {| promise := {| mValue := alt_T v |}; suspended_at := sp |} →
  GeneratorIterator_deref {| it_mGeneratorCoroutine := Some l |} w = Returns v w.
Proof.
  intros Hl. unfold GeneratorIterator_deref, noexcept. simpl.
  unfold mbind, M_MBind, M_bind.
  by erewrite handle_promise_lookup by exact Hl.
Qed.

(** The loop, entered on a live iterator at a yielded value, reads this
    value and all later ones and ends on the sentinel. *)
Lemma for_loop_at_yield fuel g l w v k seen :
  frames w !! l = Some {| promise := {| mValue := alt_T v |}; suspended_at := at_yield k |} →
  length (yielded k) + 1 < fuel →
  for_loop fuel g {| it_mGeneratorCoroutine := Some l |} seen w =
    Returns (Some (seen ++ v :: yielded k, sentinel)) (exhausted l k w).
Proof.
  revert w v k seen. induction fuel as [|fuel IH]; intros w v k seen Hl Hfuel; [lia|].
  simpl. unfold mbind, M_MBind, M_bind. simpl.
  rewrite (deref_value l w v _ Hl).
  rewrite (incr_suspended l w _ k Hl) by (right; done).
  simpl.
  unfold exhausted, frame_after.
  rewrite (yielded_first_yield k) in Hfuel |- *.
  rewrite (performed_first_yield k).
  destruct (first_yield k) as [[v' k']|] eqn:Hk.
  - rewrite bool_decide_eq_false_2 by done.
    rewrite IH with (v := v') (k := k');
      [| simpl; apply lookup_insert_eq | simpl in *; lia].
    unfold exhausted. simpl.
    by rewrite insert_insert_eq, <- !app_assoc.
  - rewrite bool_decide_eq_true_2 by done.
    destruct fuel as [|fuel']; [simpl in *; lia|].
    simpl. by rewrite app_nil_r.
Qed.

(** Calling the coroutine and traversing the generator to the end. *)
Lemma call_coroutine_eq b w :
  call_coroutine b w =
    Returns (get_return_object (fresh (dom (frames w))))
      {| frames := <[fresh (dom (frames w)) :=
                       {| promise := GeneratorPromise_new;
                          suspended_at := at_initial_suspend b |}]> (frames w);
         trace := trace w |}.
Proof. reflexivity. Qed.

Lemma begin_not_started l w b :
  frames w !! l = Some {| promise := GeneratorPromise_new;
                          suspended_at := at_initial_suspend b |} →
  Generator_begin (get_return_object l) w =
    Returns (if bool_decide (first_yield b = None) then sentinel
             else {| it_mGeneratorCoroutine := Some l |})
      {| frames := <[l := frame_after b]> (frames w);
         trace := trace w ++ performed_first b |}.
Proof.
  intros Hl. unfold Generator_begin, get_return_object, mbind, M_MBind, M_bind.
  cbn [mGeneratorCoroutine].
  rewrite (resume_suspended l w _ b Hl) by (left; done).
  erewrite handle_promise_lookup by (simpl; apply lookup_insert_eq).
  rewrite finished_frame_after. by case_bool_decide.
Qed.

Lemma traverse_not_started fuel l w b :
  frames w !! l = Some {| promise := GeneratorPromise_new;
                          suspended_at := at_initial_suspend b |} →
  length (yielded b) < fuel →
  traverse fuel (get_return_object l) w =
    Returns (Some (yielded b, sentinel)) (exhausted l b w).
Proof.
  intros Hl Hfuel. unfold traverse, mbind, M_MBind, M_bind.
  rewrite (begin_not_started l w b Hl).
  unfold exhausted, frame_after.
  rewrite (yielded_first_yield b) in Hfuel |- *.
  rewrite (performed_first_yield b).
  destruct (first_yield b) as [[v k]|] eqn:Hb.
  - rewrite bool_decide_eq_false_2 by done.
    rewrite for_loop_at_yield with (v := v) (k := k);
      [| simpl; apply lookup_insert_eq | simpl in *; lia].
    unfold exhausted. simpl.
    by rewrite insert_insert_eq, <- !app_assoc.
  - rewrite bool_decide_eq_true_2 by done.
    destruct fuel as [|fuel']; [simpl in *; lia|].
    simpl. by rewrite app_nil_r.
Qed.

Lemma lookup_fresh_frame w : frames w !! fresh (dom (frames w)) = None.
Proof. apply not_elem_of_dom, is_fresh. Qed.

Lemma end_eq (g : Generator) w : Generator_end g w = Returns sentinel w.
Proof. reflexivity. Qed.

Lemma incr_sentinel (it : GeneratorIterator) w :
  it_mGeneratorCoroutine it = nullptr →
  GeneratorIterator_incr it w = Returns (it, it) w.
Proof.
  intros Hit. unfold GeneratorIterator_incr, noexcept.
  by rewrite bool_decide_eq_true_2.
Qed.

Lemma eq_sentinel (it : GeneratorIterator) :
  GeneratorIterator_eq it sentinel = true ↔ it_mGeneratorCoroutine it = nullptr.
Proof. unfold GeneratorIterator_eq. simpl. apply bool_decide_eq_true. Qed.

(** A coroutine just called, traversed to its end. *)
Lemma call_then_traverse b w g w1 fuel :
  call_coroutine b w = Returns g w1 →
  length (yielded b) < fuel →
  traverse fuel g w1 =
    Returns (Some (yielded b, sentinel)) (exhausted (fresh (dom (frames w))) b w1).
Proof.
  rewrite call_coroutine_eq. intros [= <- <-] Hfuel.
  apply traverse_not_started; [simpl; apply lookup_insert_eq | done].
Qed.
End Protocol.

(** ** The behaviour of the generator *)

Section Claims.
Context {T E A : Type}.
Implicit Types (b k : coroutine_body T E A) (p : GeneratorPromise T E).
Implicit Types (w : world T E A) (tr : list A) (l : positive).
Implicit Types (g : Generator) (it : GeneratorIterator) (vs : list T).

(** C1: a coroutine that yields the values [vs] and then returns is
    traversed in full by begin, dereference and increment: the loop reads
    exactly [vs], in order, and stops on an iterator equal to [end()].
    Any [fuel] above the number of values is enough for the loop to
    end. *)
Theorem traversal_reads_yielded_values vs b w g w1 fuel :
  yielded b = vs →
  raised b = None →
  call_coroutine b w = Returns g w1 →
  length vs < fuel →
  ∃ it e w2,
    traverse fuel g w1 = Returns (Some (vs, it)) w2 ∧
    Generator_end g w2 = Returns e w2 ∧
    GeneratorIterator_eq it e = true.
Proof.
  intros <- _ Hcall Hfuel.
  exists sentinel, sentinel, (exhausted (fresh (dom (frames w))) b w1).
  split; [by apply call_then_traverse | done].
Qed.

(** C5: a coroutine that returns without yielding: [begin()] is equal to
    [end()], and a traversal reads no value. *)
Theorem begin_of_empty_generator_is_end b w g w1 :
  yielded b = [] →
  raised b = None →
  call_coroutine b w = Returns g w1 →
  ∃ it e w2,
    Generator_begin g w1 = Returns it w2 ∧
    Generator_end g w2 = Returns e w2 ∧
    GeneratorIterator_eq it e = true ∧
    ∀ fuel, 0 < fuel → traverse fuel g w1 = Returns (Some ([], it)) w2.
Proof.
  intros Hy _ Hcall.
  assert (Hfirst : first_yield b = None).
  { rewrite yielded_first_yield in Hy. by destruct (first_yield b) as [[??]|]. }
  pose proof Hcall as Hcall'.
  rewrite call_coroutine_eq in Hcall'. injection Hcall' as <- <-.
  set (l := fresh (dom (frames w))) in *.
  eexists sentinel, sentinel, _. split.
  { rewrite begin_not_started with (b := b) by (simpl; apply lookup_insert_eq).
    by rewrite bool_decide_eq_true_2. }
  split; [done|]. split; [done|].
  intros fuel Hfuel.
  rewrite call_then_traverse with (b := b) (w := w) by (done || rewrite Hy; simpl; lia).
  rewrite Hy. unfold exhausted, frame_after. rewrite Hfirst. simpl.
  fold l. rewrite insert_insert_eq.
  rewrite (performed_first_yield b), Hfirst. by rewrite app_nil_r.
Qed.

(** C6: on an iterator equal to [end()], [operator++] returns at once:
    the iterator stays what it was and the world, so every coroutine
    frame, is untouched, however often it is applied. *)
Theorem incr_of_end_is_noop g it e w0 w0' w n :
  Generator_end g w0 = Returns e w0' →
  GeneratorIterator_eq it e = true →
  GeneratorIterator_incr it w = Returns (it, it) w ∧
  advance n it w = Returns it w.
Proof.
  rewrite end_eq. intros [= <- _] Heq%eq_sentinel.
  split; [by apply incr_sentinel|].
  induction n as [|n IH]; [done|].
  simpl. unfold mbind, M_MBind, M_bind.
  by rewrite incr_sentinel.
Qed.

(** C7: [end()] returns the null iterator and leaves the world as it is,
    whatever the world; two results of [end()], of one generator or of
    two, are equal; and the iterator a traversal of any generator ends on
    is equal to the [end()] of every generator. *)
Theorem end_is_pure_and_unique :
  (∀ g w, Generator_end g w = Returns sentinel w) ∧
  (∀ g1 g2 w1 w2, ∃ e1 e2,
      Generator_end g1 w1 = Returns e1 w1 ∧
      Generator_end g2 w2 = Returns e2 w2 ∧
      GeneratorIterator_eq e1 e2 = true) ∧
  (∀ b w, ∃ g w1 it w2,
      call_coroutine b w = Returns g w1 ∧
      traverse (S (length (yielded b))) g w1 = Returns (Some (yielded b, it)) w2 ∧
      ∀ g' w', ∃ e,
        Generator_end g' w' = Returns e w' ∧ GeneratorIterator_eq it e = true).
Proof.
  split; [done|]. split.
  - intros g1 g2 w1 w2. by exists sentinel, sentinel.
  - intros b w. eexists _, _, sentinel, _.
    split; [apply call_coroutine_eq|].
    split; [apply call_then_traverse with (w := w); [apply call_coroutine_eq | lia]|].
    intros g' w'. by exists sentinel.
Qed.

(** C8: the slot of the promise never holds a value and an exception
    together, and each hook that writes the slot leaves exactly what it
    wrote: a yield the value alone, the end of the coroutine nothing, a
    caught exception the exception alone. *)
Theorem slot_holds_at_most_one :
  (∀ p, holds_T (mValue p) && holds_exception_ptr (mValue p) = false) ∧
  (∀ p v e, value p = inr v → exception p = Some e → False) ∧
  (∀ p v, value (yield_value v p).2 = inr v ∧ exception (yield_value v p).2 = None) ∧
  (∀ p, value (final_suspend p).2 = inl bad_variant_access ∧
        exception (final_suspend p).2 = None) ∧
  (∀ p e, value (unhandled_exception e p) = inl bad_variant_access ∧
          exception (unhandled_exception e p) = Some e) ∧
  (∀ p, return_void p = p).
Proof.
  repeat split.
  - by intros [[]].
  - intros [[]] v0 e0; unfold value, exception; simpl; congruence.
Qed.

(** C9: calling the coroutine only allocates its frame, suspended at the
    initial suspend point with the whole body still to run and nothing of
    it done; the first [begin()] then runs the body, up to its first
    suspend point. *)
Theorem coroutine_starts_suspended b w :
  (initial_suspend (GeneratorPromise_new (T := T) (E := E))).1 = suspend_always ∧
  ∃ l g w1,
    frames w !! l = None ∧
    call_coroutine b w = Returns g w1 ∧
    mGeneratorCoroutine g = Some l ∧
    frames w1 = <[l := {| promise := GeneratorPromise_new;
                          suspended_at := at_initial_suspend b |}]> (frames w) ∧
    trace w1 = trace w ∧
    ∃ it w2,
      Generator_begin g w1 = Returns it w2 ∧
      trace w2 = trace w ++ performed_first b ∧
      frames w2 !! l = Some (frame_after b).
Proof.
  split; [done|].
  eexists (fresh (dom (frames w))), _, _.
  split; [apply lookup_fresh_frame|].
  split; [apply call_coroutine_eq|].
  do 3 (split; [done|]).
  eexists _, _. split.
  { apply begin_not_started with (b := b). simpl. apply lookup_insert_eq. }
  split; [done|]. simpl. apply lookup_insert_eq.
Qed.

(** C10: a coroutine that a resumption has brought to its final suspend
    point has a promise for which [finished()] holds and [exception()] is
    null, because [final_suspend()] writes [monostate] over whatever the
    slot held, the exception stored by [unhandled_exception()]
    included. *)
Theorem finished_at_final_suspend l w w' fr :
  resume (Some l) w = Returns () w' →
  frames w' !! l = Some fr →
  suspended_at fr = at_final_suspend →
  finished (promise fr) = true ∧
  exception (promise fr) = None ∧
  (∀ p, (final_suspend p).2 = GeneratorPromise_new) ∧
  (∀ p e, exception (unhandled_exception e p) = Some e ∧
          finished (final_suspend (unhandled_exception e p)).2 = true).
Proof.
  intros Hres Hl Hfin.
  assert (Hfr : ∃ b', fr = frame_after b').
  { unfold resume in Hres.
    destruct (frames w !! l) as [fr0|]; [|done].
    destruct (suspended_at fr0) as [b'|b'|]; [| |done];
      rewrite run_body_eq in Hres; injection Hres as <-;
      simpl in Hl; rewrite lookup_insert_eq in Hl; injection Hl as <-; eauto. }
  destruct Hfr as [b' ->]. unfold frame_after in *.
  destruct (first_yield b') as [[v k]|]; [done|].
  repeat split.
Qed.

(** C2 (not met by the code): an exception thrown by the body is stored
    by [unhandled_exception()] and wiped by [final_suspend()] before the
    resumption returns.  A traversal of a coroutine that ends by throwing
    returns normally with the values yielded before, on an iterator equal
    to [end()], and the promise holds no exception afterwards: no
    dereference rethrows it. *)
Theorem thrown_exception_never_surfaces b e w g w1 fuel :
  raised b = Some e →
  call_coroutine b w = Returns g w1 →
  length (yielded b) < fuel →
  ∃ it w2,
    traverse fuel g w1 = Returns (Some (yielded b, it)) w2 ∧
    GeneratorIterator_eq it sentinel = true ∧
    ∀ l fr, mGeneratorCoroutine g = Some l →
            frames w2 !! l = Some fr →
            exception (promise fr) = None.
Proof.
  intros _ Hcall Hfuel.
  exists sentinel, (exhausted (fresh (dom (frames w))) b w1).
  split; [by apply call_then_traverse|]. split; [done|].
  intros l fr Hg Hl.
  rewrite call_coroutine_eq in Hcall. injection Hcall as <- <-.
  injection Hg as <-. simpl in Hl.
  rewrite lookup_insert_eq in Hl. by injection Hl as <-.
Qed.

(** C3 (not met by the code): for a coroutine that throws before any
    yield, [begin()] is equal to [end()]; dereferencing it is a
    dereference of the null handle and rethrows nothing. *)
Theorem begin_of_throwing_generator_is_end (e : E) w :
  ∃ g w1 it w2,
    call_coroutine (throw e) w = Returns g w1 ∧
    Generator_begin g w1 = Returns it w2 ∧
    Generator_end g w2 = Returns sentinel w2 ∧
    GeneratorIterator_eq it sentinel = true ∧
    GeneratorIterator_deref it w2 = Undefined.
Proof.
  eexists _, _, sentinel, _.
  split; [apply call_coroutine_eq|]. split; [|done].
  rewrite begin_not_started with (b := throw e) by (simpl; apply lookup_insert_eq).
  done.
Qed.

(** C4 (not met by the code): for a coroutine that yields [v1] and then
    throws, the first dereference returns [v1], but the one increment
    that follows already gives an iterator equal to [end()], with no
    exception left in the promise; dereferencing that iterator rethrows
    nothing. *)
Theorem exception_after_yield_is_lost (v1 : T) (e : E) w :
  ∃ l g w1 it w2 it' w3,
    call_coroutine (co_yield v1 (throw e)) w = Returns g w1 ∧
    mGeneratorCoroutine g = Some l ∧
    Generator_begin g w1 = Returns it w2 ∧
    GeneratorIterator_eq it sentinel = false ∧
    GeneratorIterator_deref it w2 = Returns v1 w2 ∧
    GeneratorIterator_incr it w2 = Returns (it', it') w3 ∧
    GeneratorIterator_eq it' sentinel = true ∧
    (promise <$> frames w3 !! l) = Some GeneratorPromise_new ∧
    GeneratorIterator_deref it' w3 = Undefined.
Proof.
  eexists (fresh (dom (frames w))), _, _,
    {| it_mGeneratorCoroutine := Some (fresh (dom (frames w))) |}, _, sentinel, _.
  split; [apply call_coroutine_eq|]. split; [done|].
  split.
  { rewrite begin_not_started with (b := co_yield v1 (throw e))
      by (simpl; apply lookup_insert_eq).
    reflexivity. }
  split; [done|]. split.
  { eapply deref_value. simpl. apply lookup_insert_eq. }
  split.
  { erewrite incr_suspended with (b := throw e);
      [| simpl; apply lookup_insert_eq | right; done].
    simpl. reflexivity. }
  split; [done|]. split; [|done].
  simpl. by rewrite lookup_insert_eq.
Qed.

(** Were an exception still in the slot at a dereference, the rethrow
    would not reach the caller either: [operator*] is [noexcept]. *)
Lemma deref_exception_terminates l w (e : E) (sp : suspend_point T E A) :
  frames w !! l = Some {| promise := {| mValue := alt_exception_ptr (Some e) |};
                          suspended_at := sp |} →
  GeneratorIterator_deref {| it_mGeneratorCoroutine := Some l |} w = Terminates.
Proof.
  intros Hl. unfold GeneratorIterator_deref, noexcept. simpl.
  unfold mbind, M_MBind, M_bind.
  by erewrite handle_promise_lookup by exact Hl.
Qed.
End Claims.

(** ** The theorems at the sample generators *)

Module Witnesses.
Import Samples.

Lemma traversal_reads_yielded_values_witness :
  ∃ g w1,
    call_coroutine two_values no_frames = Returns g w1 ∧
    ∃ it e w2,
      traverse 3 g w1 = Returns (Some ([1; 2], it)) w2 ∧
      Generator_end g w2 = Returns e w2 ∧
      GeneratorIterator_eq it e = true.
Proof.
  eexists _, _. split; [reflexivity|].
  apply (traversal_reads_yielded_values [1; 2] two_values no_frames);
    [reflexivity | reflexivity | reflexivity | simpl; lia].
Defined.

Lemma begin_of_empty_generator_is_end_witness :
  ∃ g w1,
    call_coroutine no_value no_frames = Returns g w1 ∧
    ∃ it e w2,
      Generator_begin g w1 = Returns it w2 ∧
      Generator_end g w2 = Returns e w2 ∧
      GeneratorIterator_eq it e = true ∧
      ∀ fuel, 0 < fuel → traverse fuel g w1 = Returns (Some ([], it)) w2.
Proof.
  eexists _, _. split; [reflexivity|].
  apply (begin_of_empty_generator_is_end no_value no_frames);
    reflexivity.
Defined.

Lemma incr_of_end_is_noop_witness :
  GeneratorIterator_incr sentinel about_to_throw = Returns (sentinel, sentinel) about_to_throw ∧
  advance 3 sentinel about_to_throw = Returns sentinel about_to_throw.
Proof.
  apply (incr_of_end_is_noop {| mGeneratorCoroutine := Some 1%positive |}
           sentinel sentinel no_frames no_frames about_to_throw 3);
    reflexivity.
Defined.

Lemma finished_at_final_suspend_witness :
  resume (Some 1%positive) about_to_throw = Returns () throw_done ∧
  frames throw_done !! 1%positive = Some finished_frame ∧
  finished (promise (finished_frame (T := nat) (E := nat) (A := nat))) = true ∧
  exception (promise (finished_frame (T := nat) (E := nat) (A := nat))) = None.
Proof.
  split; [reflexivity|]. split; [reflexivity|].
  destruct (finished_at_final_suspend 1%positive about_to_throw throw_done finished_frame)
    as (H1 & H2 & _); [reflexivity | reflexivity | reflexivity |].
  exact (conj H1 H2).
Defined.

(** [throw 9;]: [begin()] is already [end()], and the promise is clean. *)
Example throws_at_once_begin :
  (g ← call_coroutine throws_at_once;
   it ← Generator_begin g;
   e ← Generator_end g;
   p ← handle_promise (mGeneratorCoroutine g);
   mret (GeneratorIterator_eq it e, exception p)) no_frames
  = Returns (true, None) throw_done.
Proof. reflexivity. Qed.

(** [co_yield 1; throw 9;]: the value is read, then one increment ends
    the traversal. *)
Example yields_then_throws_steps :
  (g ← call_coroutine yields_then_throws;
   it ← Generator_begin g;
   v ← GeneratorIterator_deref it;
   r ← GeneratorIterator_incr it;
   e ← Generator_end g;
   p ← handle_promise (mGeneratorCoroutine g);
   mret (v, GeneratorIterator_eq r.1 e, exception p)) no_frames
  = Returns (1, true, None) throw_done.
Proof. reflexivity. Qed.

Lemma thrown_exception_never_surfaces_witness :
  ∃ g w1,
    call_coroutine yields_then_throws no_frames = Returns g w1 ∧
    ∃ it w2,
      traverse 2 g w1 = Returns (Some ([1], it)) w2 ∧
      GeneratorIterator_eq it sentinel = true ∧
      ∀ l fr, mGeneratorCoroutine g = Some l →
              frames w2 !! l = Some fr →
              exception (promise fr) = None.
Proof.
  eexists _, _. split; [reflexivity|].
  apply (thrown_exception_never_surfaces yields_then_throws 9 no_frames);
    [reflexivity | reflexivity | simpl; lia].
Defined.
End Witnesses.


(** ** Further properties of the iterator and the generator *)

Section Traversal.
Context {T E A : Type}.
Implicit Types (b k : coroutine_body T E A) (p : GeneratorPromise T E).
Implicit Types (w : world T E A) (tr : list A) (l : positive).
Implicit Types (g : Generator) (it : GeneratorIterator) (vs : list T).

Lemma advance_sentinel n w : advance n sentinel w = Returns sentinel w.
Proof.
  induction n as [|n IH]; [done|].
  simpl. unfold mbind, M_MBind, M_bind.
  by rewrite incr_sentinel.
Qed.

Lemma yielded_nth_yield n b : yielded b !! n = fst <$> nth_yield n b.
Proof.
  revert b. induction n as [|n IH]; intros b; rewrite (yielded_first_yield b); simpl;
    destruct (first_yield b) as [[v k]|]; simpl; auto.
Qed.

Lemma drop_yielded_nth_yield n b :
  drop n (yielded b) = match nth_yield n b with
                       | Some (v, k) => v :: yielded k
                       | None => []
                       end.
Proof.
  revert b. induction n as [|n IH]; intros b; rewrite (yielded_first_yield b); simpl;
    destruct (first_yield b) as [[v k]|]; simpl; auto.
Qed.

Lemma performed_by_nth_yield n b :
  performed b = performed_by (S n) b ++ match nth_yield n b with
                                        | Some (_, k) => performed k
                                        | None => []
                                        end.
Proof.
  revert b. induction n as [|n IH]; intros b; rewrite (performed_first_yield b);
    cbn [performed_by nth_yield]; destruct (first_yield b) as [[v k]|];
    rewrite <- ?app_assoc; f_equal; try done.
  etrans; [apply (IH k)|]. cbn [performed_by]. by rewrite <- app_assoc.
Qed.

(** [n + 1] increments of a live iterator whose coroutine can be resumed. *)
Lemma advance_suspended n l w fr b :
  frames w !! l = Some fr →
  suspended_at fr = at_initial_suspend b ∨ suspended_at fr = at_yield b →
  advance (S n) {| it_mGeneratorCoroutine := Some l |} w =
    Returns (iterator_at n l b)
      {| frames := <[l := frame_at n b]> (frames w);
         trace := trace w ++ performed_by (S n) b |}.
Proof.
  revert w fr b. induction n as [|n IH]; intros w fr b Hl Hs.
  - cbn [advance]. unfold mbind, M_MBind, M_bind.
    rewrite (incr_suspended l w fr b Hl Hs). cbn [fst advance mret M_MRet M_ret].
    unfold iterator_at, frame_at, frame_after. cbn [nth_yield performed_by].
    destruct (first_yield b) as [[v k]|]; simpl; by rewrite app_nil_r.
  - change (advance (S (S n)) ?i) with
      (r ← GeneratorIterator_incr (T := T) (E := E) (A := A) i; advance (S n) r.1).
    unfold mbind, M_MBind, M_bind.
    rewrite (incr_suspended l w fr b Hl Hs). cbn [fst].
    unfold iterator_at, frame_at, frame_after. cbn [nth_yield performed_by].
    destruct (first_yield b) as [[v k]|] eqn:Hb.
    + rewrite bool_decide_eq_false_2 by done.
      erewrite IH; [| simpl; apply lookup_insert_eq | right; done].
      unfold iterator_at, frame_at. simpl.
      by rewrite insert_insert_eq, <- app_assoc.
    + rewrite bool_decide_eq_true_2 by done.
      rewrite advance_sentinel. by rewrite app_nil_r.
Qed.

(** [begin()] on a coroutine that can be resumed is one increment. *)
Lemma begin_suspended l w fr b :
  frames w !! l = Some fr →
  suspended_at fr = at_initial_suspend b ∨ suspended_at fr = at_yield b →
  Generator_begin {| mGeneratorCoroutine := Some l |} w =
    Returns (iterator_at 0 l b)
      {| frames := <[l := frame_after b]> (frames w);
         trace := trace w ++ performed_first b |}.
Proof.
  intros Hl Hs. unfold Generator_begin, mbind, M_MBind, M_bind.
  cbn [mGeneratorCoroutine].
  rewrite (resume_suspended l w fr b Hl Hs).
  erewrite handle_promise_lookup by (simpl; apply lookup_insert_eq).
  rewrite finished_frame_after. unfold iterator_at. cbn [nth_yield].
  case_bool_decide as Hb; [by rewrite Hb|].
  by destruct (first_yield b).
Qed.

Lemma begin_advance_suspended n l w fr b :
  frames w !! l = Some fr →
  suspended_at fr = at_initial_suspend b ∨ suspended_at fr = at_yield b →
  begin_advance n {| mGeneratorCoroutine := Some l |} w =
    Returns (iterator_at n l b)
      {| frames := <[l := frame_at n b]> (frames w);
         trace := trace w ++ performed_by (S n) b |}.
Proof.
  intros Hl Hs. rewrite <- (advance_suspended n l w fr b Hl Hs).
  unfold begin_advance. cbn [advance]. unfold mbind, M_MBind, M_bind.
  rewrite (begin_suspended l w fr b Hl Hs), (incr_suspended l w fr b Hl Hs).
  unfold iterator_at. cbn [nth_yield fst].
  destruct (first_yield b); [by rewrite bool_decide_eq_false_2 | by rewrite bool_decide_eq_true_2].
Qed.
End Traversal.

Section Inversion.
Context {T E A : Type}.
Implicit Types (b k : coroutine_body T E A) (w : world T E A) (l : positive).
Implicit Types (g : Generator) (it : GeneratorIterator).

Lemma resume_returns h w u w' :
  resume h w = Returns u w' →
  ∃ l fr b, h = Some l ∧ frames w !! l = Some fr ∧
            (suspended_at fr = at_initial_suspend b ∨ suspended_at fr = at_yield b).
Proof.
  unfold resume. destruct h as [l|]; [|done].
  destruct (frames w !! l) as [fr|] eqn:Hl; [|done].
  destruct (suspended_at fr) as [b|b|] eqn:Hs; [| |done]; intros _;
    exists l, fr, b; eauto.
Qed.

Lemma resume_undefined h w :
  resume h w = Undefined ↔
  h = None ∨ ∃ l, h = Some l ∧
    (frames w !! l = None ∨
     ∃ fr, frames w !! l = Some fr ∧ suspended_at fr = at_final_suspend).
Proof.
  unfold resume. destruct h as [l|]; [|split; [by left | done]].
  destruct (frames w !! l) as [fr|] eqn:Hl.
  - destruct (suspended_at fr) as [b|b|] eqn:Hs.
    + split; [done|]. intros [|(l0 & [= <-] & [|(fr' & ? & ?)])]; congruence.
    + split; [done|]. intros [|(l0 & [= <-] & [|(fr' & ? & ?)])]; congruence.
    + split; [|done]. intros _. right. exists l. split; [done|]. right. by exists fr.
  - split; [|done]. intros _. right. exists l. split; [done|]. by left.
Qed.

Lemma incr_live_returns l w x w' :
  GeneratorIterator_incr {| it_mGeneratorCoroutine := Some l |} w = Returns x w' →
  ∃ fr b, frames w !! l = Some fr ∧
          (suspended_at fr = at_initial_suspend b ∨ suspended_at fr = at_yield b).
Proof.
  intros H.
  destruct (frames w !! l) as [fr|] eqn:Hl;
    [destruct (suspended_at fr) as [b|b|] eqn:Hs; [eauto | eauto |] |];
    exfalso; revert H;
    unfold GeneratorIterator_incr, noexcept, mbind, M_MBind, M_bind, resume; simpl;
    rewrite Hl, ?Hs; done.
Qed.

Lemma begin_returns g w it w' :
  Generator_begin g w = Returns it w' →
  ∃ l fr b, mGeneratorCoroutine g = Some l ∧ frames w !! l = Some fr ∧
            (suspended_at fr = at_initial_suspend b ∨ suspended_at fr = at_yield b).
Proof.
  unfold Generator_begin, mbind, M_MBind, M_bind.
  destruct (resume (mGeneratorCoroutine g) w) as [u w1|t w1| |] eqn:Hres; try done.
  apply resume_returns in Hres. eauto.
Qed.

Lemma deref_frame_at n l w b (v : T) :
  frames w !! l = Some (frame_at n b) →
  yielded b !! n = Some v →
  GeneratorIterator_deref {| it_mGeneratorCoroutine := Some l |} w = Returns v w.
Proof.
  intros Hl Hv. rewrite yielded_nth_yield in Hv. unfold frame_at in Hl.
  destruct (nth_yield n b) as [[v' k]|]; [|done].
  injection Hv as <-. by eapply deref_value.
Qed.

Lemma deref_finished l w :
  frames w !! l = Some finished_frame →
  GeneratorIterator_deref {| it_mGeneratorCoroutine := Some l |} w = Terminates.
Proof.
  intros Hl. unfold GeneratorIterator_deref, noexcept. simpl.
  unfold mbind, M_MBind, M_bind.
  by erewrite handle_promise_lookup by exact Hl.
Qed.
End Inversion.

Section Extras.
Context {T E A : Type}.
Implicit Types (b k : coroutine_body T E A) (w : world T E A) (l : positive).
Implicit Types (g : Generator) (it : GeneratorIterator).

(** X1: after [begin()] and [n] increments on a coroutine just called, the
    iterator stands on the [n]-th value the body yields (counted from 0):
    it differs from the null iterator of [end()] and [operator*] returns
    that value; when the body yields [n] values or fewer, the iterator is
    the null iterator. *)
Theorem nth_increment_reads_nth_value b w n :
  ∃ g w1 it w2,
    call_coroutine b w = Returns g w1 ∧
    begin_advance n g w1 = Returns it w2 ∧
    match yielded b !! n with
    | Some v =>
        GeneratorIterator_neq it sentinel = true ∧
        GeneratorIterator_deref it w2 = Returns v w2
    | None => GeneratorIterator_eq it sentinel = true
    end.
Proof.
  eexists _, _, _, _. split; [apply call_coroutine_eq|]. split.
  { eapply begin_advance_suspended; [simpl; apply lookup_insert_eq | by left]. }
  destruct (yielded b !! n) as [v|] eqn:Hv.
  - pose proof Hv as Hv'. rewrite yielded_nth_yield in Hv'. unfold iterator_at.
    destruct (nth_yield n b) as [[v' k]|] eqn:Hn; [|done].
    split; [done|].
    eapply deref_frame_at; [simpl; apply lookup_insert_eq | done].
  - rewrite yielded_nth_yield in Hv. unfold iterator_at.
    by destruct (nth_yield n b) as [[v' k]|].
Qed.

(** X2: the body runs on demand only.  Calling the coroutine performs
    nothing; [begin()] and [n] increments perform exactly what the body
    does up to its suspend point number [n + 1], and all the body does
    once it yields no more than [n] values. *)
Theorem producer_runs_only_on_demand b w n :
  ∃ g w1 it w2,
    call_coroutine b w = Returns g w1 ∧
    begin_advance n g w1 = Returns it w2 ∧
    trace w1 = trace w ∧
    trace w2 = trace w ++ performed_by (S n) b ∧
    (length (yielded b) ≤ n → trace w2 = trace w ++ performed b).
Proof.
  eexists _, _, _, _. split; [apply call_coroutine_eq|]. split.
  { eapply begin_advance_suspended; [simpl; apply lookup_insert_eq | by left]. }
  split; [done|]. split; [done|].
  intros Hn%lookup_ge_None_2. rewrite yielded_nth_yield in Hn.
  cbn [trace]. rewrite (performed_by_nth_yield n b).
  destruct (nth_yield n b) as [[v k]|]; [done|]. by rewrite app_nil_r.
Qed.

(** X3: [operator*] returns [v] exactly when the iterator refers to a
    coroutine frame whose promise holds the value [v]; it is a read, the
    world stays as it was. *)
Theorem deref_returns_iff_slot_holds_value it w (v : T) w' :
  GeneratorIterator_deref it w = Returns v w' ↔
  w' = w ∧ ∃ l fr, it_mGeneratorCoroutine it = Some l ∧
                   frames w !! l = Some fr ∧
                   mValue (promise fr) = alt_T v.
Proof.
  split.
  - destruct it as [[l|]]; unfold GeneratorIterator_deref, noexcept, mbind, M_MBind,
      M_bind, handle_promise; simpl; [|done].
    destruct (frames w !! l) as [fr|] eqn:Hl; [|done].
    destruct fr as [[m] sp]. destruct m as [|v0|[e|]]; simpl; try done.
    intros [= <- <-]. split; [done|]. by exists l, {| promise := {| mValue := alt_T v0 |}; suspended_at := sp |}.
  - intros (-> & l & fr & Hit & Hl & Hv).
    destruct it as [h]. simpl in Hit. subst h.
    destruct fr as [[m] sp]. simpl in Hv. subst m.
    by eapply deref_value.
Qed.

(** X4: how [operator*] fails.  On the null iterator or on an iterator
    whose frame is gone the behaviour is undefined; on a frame whose
    promise holds no value (not started, finished, or holding an
    exception) the exception thrown inside ends in [std::terminate]; no
    exception ever leaves [operator*]. *)
Theorem deref_failure_modes it w :
  (GeneratorIterator_deref it w = Undefined ↔
     it_mGeneratorCoroutine it = None ∨
     ∃ l, it_mGeneratorCoroutine it = Some l ∧ frames w !! l = None) ∧
  (GeneratorIterator_deref it w = Terminates ↔
     ∃ l fr, it_mGeneratorCoroutine it = Some l ∧
             frames w !! l = Some fr ∧
             holds_T (mValue (promise fr)) = false) ∧
  (∀ t w', GeneratorIterator_deref it w ≠ Throws t w').
Proof.
  destruct it as [[l|]]; unfold GeneratorIterator_deref, noexcept, mbind, M_MBind,
    M_bind, handle_promise; simpl.
  - destruct (frames w !! l) as [fr|] eqn:Hl.
    + destruct fr as [[m] sp]. destruct m as [|v0|[e|]]; simpl.
      all: split; [|split]; try done.
      all: try (split; [done|]; intros [|(l0 & [= <-] & ?)]; congruence).
      all: try (split; [intros _; eauto | done]).
      split; [done|]. intros (l0 & fr & [= <-] & Hfr & Hv). by simplify_eq/=.
    + split; [|split]; try done.
      * split; [|done]. intros _. right. by exists l.
      * split; [done|]. intros (l0 & fr & [= <-] & Hfr & _). congruence.
  - split; [|split]; try done.
    + split; [by left | done].
    + split; [done|]. by intros (l0 & fr & ? & _).
Qed.

(** X5: what [operator++] hands back.  Whenever it returns, the iterator
    it returns is the updated iterator itself, and it is either the null
    iterator of [end()] or the iterator it was, now dereferenceable:
    [operator*] on it returns a value. *)
Theorem incr_gives_end_or_dereferenceable it w it' r w' :
  GeneratorIterator_incr it w = Returns (it', r) w' →
  r = it' ∧
  (GeneratorIterator_eq it' sentinel = true ∨
   (it' = it ∧ ∃ v, GeneratorIterator_deref it' w' = Returns v w')).
Proof.
  destruct it as [[l|]]; intros H.
  - pose proof H as (fr & b & Hl & Hs)%incr_live_returns.
    rewrite (incr_suspended l w fr b Hl Hs) in H.
    injection H as <- <- <-. split; [done|].
    destruct (first_yield b) as [[v k]|] eqn:Hb.
    + right. rewrite bool_decide_eq_false_2 by done. split; [done|].
      exists v. eapply deref_value. simpl. rewrite lookup_insert_eq.
      unfold frame_after. by rewrite Hb.
    + left. by rewrite bool_decide_eq_true_2.
  - rewrite incr_sentinel in H by done. injection H as <- <- <-. by split; [|left].
Qed.

(** X6: what [begin()] hands back.  Whenever it returns, its iterator is
    either the null iterator of [end()] or refers to the generator's
    coroutine and is dereferenceable. *)
Theorem begin_gives_end_or_dereferenceable g w it w' :
  Generator_begin g w = Returns it w' →
  GeneratorIterator_eq it sentinel = true ∨
  (it_mGeneratorCoroutine it = mGeneratorCoroutine g ∧
   ∃ v, GeneratorIterator_deref it w' = Returns v w').
Proof.
  intros H. pose proof H as (l & fr & b & Hg & Hl & Hs)%begin_returns.
  destruct g as [h]. simpl in Hg. subst h.
  rewrite (begin_suspended l w fr b Hl Hs) in H. injection H as <- <-.
  unfold iterator_at. cbn [nth_yield].
  destruct (first_yield b) as [[v k]|] eqn:Hb; [right|by left].
  split; [done|]. exists v. eapply deref_value. simpl. rewrite lookup_insert_eq.
  unfold frame_after. by rewrite Hb.
Qed.

(** X7: when [operator++] is undefined.  On the null iterator it always
    returns; on any other iterator it is undefined exactly when the frame
    is gone or the coroutine is at its final suspend point, and it returns
    otherwise: it never throws and never calls [std::terminate]. *)
Theorem incr_undefined_iff it w :
  (GeneratorIterator_incr it w = Undefined ↔
     ∃ l, it_mGeneratorCoroutine it = Some l ∧
          (frames w !! l = None ∨
           ∃ fr, frames w !! l = Some fr ∧ suspended_at fr = at_final_suspend)) ∧
  (GeneratorIterator_incr it w ≠ Undefined →
     ∃ r w', GeneratorIterator_incr it w = Returns r w').
Proof.
  destruct it as [[l|]].
  - destruct (frames w !! l) as [fr|] eqn:Hl.
    + destruct (suspended_at fr) as [b|b|] eqn:Hs.
      * rewrite (incr_suspended l w fr b Hl) by (by left).
        split; [|eauto]. split; [done|].
        intros (l0 & [= <-] & [|(fr' & ? & ?)]); congruence.
      * rewrite (incr_suspended l w fr b Hl) by (by right).
        split; [|eauto]. split; [done|].
        intros (l0 & [= <-] & [|(fr' & ? & ?)]); congruence.
      * assert (GeneratorIterator_incr {| it_mGeneratorCoroutine := Some l |} w = Undefined) as ->.
        { unfold GeneratorIterator_incr, noexcept, mbind, M_MBind, M_bind, resume.
          simpl. by rewrite Hl, Hs. }
        split; [|done]. split; [|done]. intros _. exists l. split; [done|].
        right. by exists fr.
    + assert (GeneratorIterator_incr {| it_mGeneratorCoroutine := Some l |} w = Undefined) as ->.
      { unfold GeneratorIterator_incr, noexcept, mbind, M_MBind, M_bind, resume.
        simpl. by rewrite Hl. }
      split; [|done]. split; [|done]. intros _. exists l. split; [done|]. by left.
  - rewrite incr_sentinel by done. split; [|eauto]. split; [done|].
    by intros (l & ? & _).
Qed.

(** X8: a copy of the iterator kept from before the increment that
    finished the coroutine is not reset: it still differs from [end()],
    [operator*] on it calls [std::terminate], and incrementing it, or
    calling [begin()] again on the generator, is undefined. *)
Theorem stale_copy_after_finish it w it' r w' :
  GeneratorIterator_eq it sentinel = false →
  GeneratorIterator_incr it w = Returns (it', r) w' →
  GeneratorIterator_eq it' sentinel = true →
  GeneratorIterator_neq it it' = true ∧
  GeneratorIterator_deref it w' = Terminates ∧
  GeneratorIterator_incr it w' = Undefined ∧
  Generator_begin {| mGeneratorCoroutine := it_mGeneratorCoroutine it |} w' = Undefined.
Proof.
  destruct it as [[l|]]; [|done]. intros _ H Hend.
  pose proof H as (fr & b & Hl & Hs)%incr_live_returns.
  rewrite (incr_suspended l w fr b Hl Hs) in H. injection H as <- <- <-.
  destruct (first_yield b) as [[v k]|] eqn:Hb.
  { by rewrite bool_decide_eq_false_2 in Hend. }
  unfold frame_after. rewrite Hb.
  split; [by rewrite bool_decide_eq_true_2|].
  split; [apply deref_finished; simpl; apply lookup_insert_eq|].
  unfold GeneratorIterator_incr, Generator_begin, noexcept, mbind, M_MBind, M_bind, resume.
  simpl. by rewrite lookup_insert_eq.
Qed.

(** X9: [begin()] does not restart the generator.  A second [begin()]
    resumes the coroutine where it stands: it gives an iterator on the
    second value, the null iterator when there was only one value, and is
    undefined when the first [begin()] already finished the coroutine. *)
Theorem second_begin_does_not_restart b w :
  ∃ g w1 it1 w2,
    call_coroutine b w = Returns g w1 ∧
    Generator_begin g w1 = Returns it1 w2 ∧
    match yielded b with
    | [] => Generator_begin g w2 = Undefined
    | [_] => ∃ w3, Generator_begin g w2 = Returns sentinel w3
    | _ :: v2 :: _ =>
        ∃ it2 w3, Generator_begin g w2 = Returns it2 w3 ∧
                  GeneratorIterator_neq it2 sentinel = true ∧
                  GeneratorIterator_deref it2 w3 = Returns v2 w3
    end.
Proof.
  eexists _, _, _, _. split; [apply call_coroutine_eq|]. split.
  { eapply begin_suspended; [simpl; apply lookup_insert_eq | by left]. }
  rewrite (yielded_first_yield b). unfold frame_after.
  destruct (first_yield b) as [[v1 k]|] eqn:Hb.
  - rewrite (yielded_first_yield k). unfold get_return_object.
    erewrite begin_suspended with (b := k); [| simpl; apply lookup_insert_eq | by right].
    unfold iterator_at, frame_after. cbn [nth_yield].
    destruct (first_yield k) as [[v2 k']|] eqn:Hk; [|eauto].
    eexists _, _. split; [done|]. split; [done|].
    eapply deref_value. simpl. apply lookup_insert_eq.
  - unfold Generator_begin, get_return_object, mbind, M_MBind, M_bind, resume.
    simpl. by rewrite lookup_insert_eq.
Qed.


(** X11: after the destructor everything that still refers to the
    coroutine is dangling: a second destruction (of a copy of the
    generator), [begin()], and [operator*] and [operator++] on an iterator
    obtained from it are all undefined. *)
Theorem use_after_destroy_is_undefined g w w' it :
  Generator_destructor g w = Returns () w' →
  it_mGeneratorCoroutine it = mGeneratorCoroutine g →
  Generator_destructor g w' = Undefined ∧
  Generator_begin g w' = Undefined ∧
  GeneratorIterator_deref it w' = Undefined ∧
  GeneratorIterator_incr it w' = Undefined.
Proof.
  destruct g as [[l|]], it as [h]; unfold Generator_destructor, destroy; simpl; [|done].
  destruct (frames w !! l) as [fr|] eqn:Hl; [|done].
  intros [= <-] ->.
  unfold Generator_begin, GeneratorIterator_deref, GeneratorIterator_incr, noexcept,
    mbind, M_MBind, M_bind, resume, handle_promise. simpl.
  by rewrite lookup_delete_eq.
Qed.


(** X13: the traversal is single pass.  After [begin()] and [n]
    increments, a loop from the iterator up to [end()] reads the values
    from the [n]-th on, in order, and nothing of what was skipped; it ends
    on the null iterator with all of the body performed. *)
Theorem loop_after_increments_reads_the_rest b w n fuel :
  length (yielded b) - n < fuel →
  ∃ g w1 it w2 it' w3,
    call_coroutine b w = Returns g w1 ∧
    begin_advance n g w1 = Returns it w2 ∧
    for_loop fuel g it [] w2 = Returns (Some (drop n (yielded b), it')) w3 ∧
    GeneratorIterator_eq it' sentinel = true ∧
    trace w3 = trace w ++ performed b.
Proof.
  intros Hfuel.
  eexists _, _, _, _, sentinel,
    {| frames := <[fresh (dom (frames w)) := finished_frame]> (frames w);
       trace := trace w ++ performed b |}.
  split; [apply call_coroutine_eq|]. split.
  { eapply begin_advance_suspended; [simpl; apply lookup_insert_eq | by left]. }
  assert (Hlen : length (drop n (yielded b)) < fuel) by (rewrite length_drop; lia).
  rewrite (performed_by_nth_yield n b).
  rewrite drop_yielded_nth_yield in Hlen |- *.
  unfold iterator_at, frame_at. cbn [frames trace].
  rewrite insert_insert_eq.
  destruct (nth_yield n b) as [[v k]|] eqn:Hn.
  - erewrite for_loop_at_yield with (v := v) (k := k);
      [| simpl; apply lookup_insert_eq | simpl in Hlen; lia].
    unfold exhausted. cbn [frames trace].
    by rewrite insert_insert_eq, <- app_assoc.
  - destruct fuel as [|fuel']; [simpl in Hlen; lia|].
    by rewrite app_nil_r.
Qed.

(** X14: two generators do not interfere.  Two coroutines called one
    after the other get different handles; advancing the first [n] times
    and then the second [m] times leaves each iterator on its own
    generator's value, the two iterators unequal, and the actions of the
    two bodies performed in the order of the resumptions. *)
Theorem generators_do_not_interfere b1 b2 w n m :
  ∃ g1 w1 g2 w2 it1 w3 it2 w4,
    call_coroutine b1 w = Returns g1 w1 ∧
    call_coroutine b2 w1 = Returns g2 w2 ∧
    begin_advance n g1 w2 = Returns it1 w3 ∧
    begin_advance m g2 w3 = Returns it2 w4 ∧
    mGeneratorCoroutine g1 ≠ mGeneratorCoroutine g2 ∧
    (∀ v, yielded b1 !! n = Some v → GeneratorIterator_deref it1 w4 = Returns v w4) ∧
    (∀ v, yielded b2 !! m = Some v → GeneratorIterator_deref it2 w4 = Returns v w4) ∧
    (is_Some (yielded b1 !! n) → is_Some (yielded b2 !! m) →
     GeneratorIterator_neq it1 it2 = true) ∧
    trace w4 = trace w ++ performed_by (S n) b1 ++ performed_by (S m) b2.
Proof.
  set (l1 := fresh (dom (frames w))).
  set (f1 := {| promise := GeneratorPromise_new; suspended_at := at_initial_suspend b1 |}).
  set (w1 := {| frames := <[l1 := f1]> (frames w); trace := trace w |}).
  set (l2 := fresh (dom (frames w1))).
  assert (Hne : l1 ≠ l2).
  { intros Heq. pose proof (lookup_fresh_frame w1) as Hf. fold l2 in Hf.
    rewrite <- Heq in Hf. simpl in Hf. by rewrite lookup_insert_eq in Hf. }
  eexists (get_return_object l1), w1, (get_return_object l2), _, _, _, _, _.
  split; [apply call_coroutine_eq|]. split; [apply call_coroutine_eq|]. split.
  { eapply begin_advance_suspended with (b := b1);
      [simpl; rewrite lookup_insert_ne by done; apply lookup_insert_eq | by left]. }
  split.
  { eapply begin_advance_suspended with (b := b2);
      [simpl; fold l2; rewrite lookup_insert_ne by done; apply lookup_insert_eq
      | by left]. }
  fold l2. split; [simpl; congruence|]. split.
  { intros v Hv. rewrite yielded_nth_yield in Hv. unfold iterator_at.
    destruct (nth_yield n b1) as [[v' k]|] eqn:Hn; [|done]. injection Hv as <-.
    eapply deref_frame_at with (n := n) (b := b1).
    - simpl. rewrite lookup_insert_ne by done. apply lookup_insert_eq.
    - rewrite yielded_nth_yield, Hn. done. }
  split.
  { intros v Hv. pose proof Hv as Hv'. rewrite yielded_nth_yield in Hv'.
    unfold iterator_at.
    destruct (nth_yield m b2) as [[v' k]|] eqn:Hm; [|done].
    eapply deref_frame_at with (n := m) (b := b2); [|done].
    simpl. apply lookup_insert_eq. }
  split; [|simpl; by rewrite <- app_assoc].
  rewrite !yielded_nth_yield. unfold iterator_at.
  destruct (nth_yield n b1) as [[??]|]; [|by intros [??]].
  destruct (nth_yield m b2) as [[??]|]; [|by intros _ [??]].
  intros _ _. unfold GeneratorIterator_neq, GeneratorIterator_eq. simpl.
  rewrite bool_decide_eq_false_2; [done | congruence].
Qed.
End Extras.

(** ** The further theorems at the sample generators *)

Module MoreWitnesses.
Import Samples MoreSamples.

Lemma incr_gives_end_or_dereferenceable_witness :
  ∃ it' r w',
    GeneratorIterator_incr first_it two_coroutines = Returns (it', r) w' ∧
    r = it' ∧
    (GeneratorIterator_eq it' sentinel = true ∨
     (it' = first_it ∧ ∃ v, GeneratorIterator_deref it' w' = Returns v w')).
Proof.
  eexists _, _, _. split; [reflexivity|].
  apply (incr_gives_end_or_dereferenceable first_it two_coroutines). reflexivity.
Defined.

Lemma begin_gives_end_or_dereferenceable_witness :
  ∃ it w',
    Generator_begin second two_coroutines = Returns it w' ∧
    (GeneratorIterator_eq it sentinel = true ∨
     (it_mGeneratorCoroutine it = mGeneratorCoroutine second ∧
      ∃ v, GeneratorIterator_deref it w' = Returns v w')).
Proof.
  eexists _, _. split; [reflexivity|].
  apply (begin_gives_end_or_dereferenceable second two_coroutines). reflexivity.
Defined.

Lemma stale_copy_after_finish_witness :
  GeneratorIterator_incr first_it about_to_throw = Returns (sentinel, sentinel) throw_done ∧
  GeneratorIterator_neq first_it sentinel = true ∧
  GeneratorIterator_deref first_it throw_done = Terminates ∧
  GeneratorIterator_incr first_it throw_done = Undefined ∧
  Generator_begin first throw_done = Undefined.
Proof.
  split; [reflexivity|].
  apply (stale_copy_after_finish first_it about_to_throw sentinel sentinel throw_done);
    reflexivity.
Defined.

Lemma use_after_destroy_is_undefined_witness :
  ∃ w',
    Generator_destructor first two_coroutines = Returns () w' ∧
    Generator_destructor first w' = Undefined ∧
    Generator_begin first w' = Undefined ∧
    GeneratorIterator_deref first_it w' = Undefined ∧
    GeneratorIterator_incr first_it w' = Undefined.
Proof.
  eexists _. split; [reflexivity|].
  apply (use_after_destroy_is_undefined first two_coroutines); reflexivity.
Defined.

Lemma loop_after_increments_reads_the_rest_witness :
  ∃ g w1 it w2 it' w3,
    call_coroutine two_values no_frames = Returns g w1 ∧
    begin_advance 1 g w1 = Returns it w2 ∧
    for_loop 2 g it [] w2 = Returns (Some ([2], it')) w3 ∧
    GeneratorIterator_eq it' sentinel = true ∧
    trace w3 = [7; 8].
Proof.
  apply (loop_after_increments_reads_the_rest two_values no_frames 1 2).
  simpl. lia.
Defined.
End MoreWitnesses.
